(** * SC.SparseArray: a shallow embedding of
      frameworks/runtime/system/sparse_array.js

    The sparse array keeps a cache of already loaded elements
    ([_sa_content]), an optional declared length ([_length]) and a window
    size ([rangeWindowSize]); everything else is asked from a delegate.
    The embedding follows the JavaScript source method by method.

    - Effects are explicit: every method takes the receiver and returns
      the updated receiver.  The notifications handed to the observing
      machinery and the calls made on the delegate are appended, in
      order, to a [trace].
    - The two methods that can raise, [requestIndex] (and [objectAt]
      through it) and [indexOf], return a [Completion].
    - Indices, counts and the bounds of a range are natural numbers; the
      window size, the length and what is computed from them are
      integers.  The length is a double that holds an integer: adding to
      it rounds to the nearest double and overflows to an infinity.
    - The cache is a native array: a list of cells, where a cell is a hole
      or a value, and assignment past the end grows the list.
    - The delegate is a record of optional methods.  The methods that
      request something from the delegate may answer while they run, by a
      list of calls back into the array; the methods that ask the delegate
      a question only return a value. *)

From stdpp Require Import base numbers list strings option relations.

Local Open Scope Z_scope.

Module SC.

(** ** JavaScript values *)

(** The values stored in the array.  Numbers are the integers; objects are
    known by their identity only. *)
Inductive JsVal :=
| JUndefined
| JNull
| JBool (b : bool)
| JNum (z : Z)
| JStr (s : string)
| JObj (ref : nat).

#[global] Instance JsVal_eq_dec : EqDecision JsVal.
Proof. solve_decision. Defined.

(** [ToBoolean]. *)
Definition truthy (v : JsVal) : bool :=
  match v with
  | JUndefined | JNull => false
  | JBool b => b
  | JNum z => negb (z =? 0)
  | JStr s => negb (String.length s =? 0)%nat
  | JObj _ => true
  end.

(** A number that went through a division: an integer, or one of
    [Infinity], [-Infinity], [NaN]. *)
Inductive JsNumber :=
| Finite (z : Z)
| NotFinite.

#[global] Instance JsNumber_eq_dec : EqDecision JsNumber.
Proof. solve_decision. Defined.

(** [Math.floor(a / d)] on integers: [Z.div] rounds towards minus infinity
    for either sign of [d]; a zero divisor gives a non finite quotient. *)
Definition floor_div (a d : Z) : JsNumber :=
  if d =? 0 then NotFinite else Finite (a / d).

Definition num_add (a : JsNumber) (b : Z) : JsNumber :=
  match a with
  | Finite z => Finite (z + b)
  | NotFinite => NotFinite
  end.

Inductive JsError :=
| ReferenceError (name : string)
| TypeError (what : string).

Inductive Completion (A : Type) :=
| Normal (a : A)
| Throw (e : JsError).
Arguments Normal {A} a.
Arguments Throw {A} e.

#[global] Instance Completion_bind : MBind Completion := λ A B k c,
  match c with
  | Normal a => k a
  | Throw e => Throw e
  end.

(** ** Native arrays with holes *)

(** An element of a native array is a hole ([None]) or holds a value, which
    may be [undefined]. *)
Abbreviation Cell := (option JsVal).

(** [content[idx]]: a hole and an index past the end both read as
    [undefined]. *)
Definition get (content : list Cell) (idx : nat) : JsVal :=
  match content !! idx with
  | Some (Some v) => v
  | _ => JUndefined
  end.

(** [content[idx] = v]: in range the element is overwritten, out of range
    the array grows and the skipped positions are holes. *)
Definition put (idx : nat) (v : JsVal) (content : list Cell) : list Cell :=
  if decide (idx < List.length content)%nat
  then <[idx := Some v]> content
  else content ++ replicate (idx - List.length content) None ++ [Some v].

(** [array[len]] on the array handed over by the provider. *)
Definition item (array : list JsVal) (k : nat) : JsVal :=
  default JUndefined (array !! k).

(** Native [Array.prototype.indexOf]: strict equality, holes are skipped,
    [-1] when nothing matches. *)
Fixpoint index_from (obj : JsVal) (content : list Cell) (k : Z) : Z :=
  match content with
  | [] => -1
  | c :: rest => if decide (c = Some obj) then k else index_from obj rest (k + 1)
  end.

(** Native [Array.prototype.splice(idx, amt, ...objects)] for a start and a
    delete count that are not negative: both are clamped to the array. *)
Definition splice (idx amt : nat) (objects : list JsVal) (content : list Cell)
  : list Cell :=
  take idx content ++ (Some <$> objects) ++ drop (idx + amt) content.

(** ** Ranges *)

Module Range.
Record t := make { start : nat; length : nat }.
End Range.

#[global] Instance Range_eq_dec : EqDecision Range.t.
Proof. solve_decision. Defined.

(** Modelled from the spec: [SC.maxRange] is defined outside this file; a
    range is the half open interval from [start] to [start + length], and
    this is its upper end. *)
Definition maxRange (range : Range.t) : nat :=
  (Range.start range + Range.length range)%nat.

(** ** The receiver *)

(** [_length] is [undefined] on an array made by [create()], [null] after
    [reset()], and a number otherwise: an integer that a double holds, or
    an infinity once an addition has overflowed. *)
Inductive Length :=
| LUndefined
| LNull
| LNum (n : Z)
| LInfinity (negative : bool).

#[global] Instance Length_eq_dec : EqDecision Length.
Proof. solve_decision. Defined.

(** Modelled from the spec: [SC.none] is defined outside this file; the
    length is unresolved when it is [null] or [undefined]. *)
Definition none (l : Length) : bool :=
  match l with
  | LUndefined | LNull => true
  | LNum _ | LInfinity _ => false
  end.

(** ** Arithmetic on the length *)

(** A number is a double.  Every integer of magnitude at most 2^53 is a
    double; a sum or a difference of doubles is the double nearest to the
    exact result, the one with the even significand when two are equally
    near.  [nearest x] is that double for an integer [x] short of the
    overflow: beyond 2^53 the doubles are the multiples of
    [2 ^ (log2 |x| - 52)]. *)
Definition nearest (x : Z) : Z :=
  let a := Z.abs x in
  if a <=? 2 ^ 53 then x
  else
    let u := 2 ^ (Z.log2 a - 52) in
    let q := a / u in
    let r := a mod u in
    let q :=
      if 2 * r <? u then q
      else if u <? 2 * r then q + 1
      else if Z.even q then q else q + 1 in
    Z.sgn x * (q * u).

Arguments nearest : simpl never.

(** [Number.MAX_VALUE], the largest double. *)
Definition MAX_VALUE : Z := (2 ^ 53 - 1) * 2 ^ 971.

(** [a + b] on two doubles that hold integers: the nearest double, or an
    infinity when that is past the largest double. *)
Definition double_sum (a b : Z) : Length :=
  let m := nearest (a + b) in
  if MAX_VALUE <? Z.abs m then LInfinity (m <? 0) else LNum m.

(** An argument of a call made on the delegate. *)
Inductive Arg :=
| AThis
| ANumber (n : JsNumber)
| ARange (start : JsNumber) (length : Z)
| AValue (v : JsVal)
| AArray (objects : list JsVal).

#[global] Instance Arg_eq_dec : EqDecision Arg.
Proof. solve_decision. Defined.

(** What leaves the array: calls on the delegate, and the notifications
    handed to the observing machinery (which is not part of this file). *)
Inductive Event :=
| DelegateCall (method : string) (args : list Arg)
| EnumerableContentDidChange (range : option Range.t)
| PropertyWillChange (key : string)
| PropertyDidChange (key : string).

#[global] Instance Event_eq_dec : EqDecision Event.
Proof. solve_decision. Defined.

Record SparseArray := {
  _sa_content : option (list Cell);
  _length : Length;
  rangeWindowSize : Z;
  trace : list Event
}.

Definition with_content (c : option (list Cell)) (this : SparseArray) :=
  {| _sa_content := c; _length := _length this;
     rangeWindowSize := rangeWindowSize this; trace := trace this |}.

Definition with_length (l : Length) (this : SparseArray) :=
  {| _sa_content := _sa_content this; _length := l;
     rangeWindowSize := rangeWindowSize this; trace := trace this |}.

Definition emit (e : Event) (this : SparseArray) :=
  {| _sa_content := _sa_content this; _length := _length this;
     rangeWindowSize := rangeWindowSize this; trace := trace this ++ [e] |}.

(** Modelled from the spec: the observable mixin is defined outside this
    file; the array reports a content change, optionally scoped to a range,
    and brackets a change of [length] between a will and a did. *)
Definition enumerableContentDidChange (range : option Range.t) :=
  emit (EnumerableContentDidChange range).
Definition propertyWillChange (key : string) := emit (PropertyWillChange key).
Definition propertyDidChange (key : string) := emit (PropertyDidChange key).

(** [var content = this._sa_content; if (!content) content =
    this._sa_content = []], the opening of most methods. *)
Definition content_or_new (this : SparseArray) : list Cell :=
  default [] (_sa_content this).

(** The element the cache holds at [idx]: [undefined] when there is none. *)
Definition cached (this : SparseArray) (idx : nat) : JsVal :=
  get (content_or_new this) idx.

(** The notifications sent so far, and the calls made on the delegate. *)
Definition is_call (e : Event) : bool :=
  match e with DelegateCall _ _ => true | _ => false end.
Definition notifications (this : SparseArray) : list Event :=
  filter (fun e => is_call e = false) (trace this).
Definition calls (this : SparseArray) : list Event :=
  filter (fun e => is_call e = true) (trace this).

(** ** Calls from the delegate back into the array *)

(** [provideLength(length)]. *)
Definition provideLength (length : Length) (this : SparseArray) : SparseArray :=
  let this := if none length then with_content None this else this in
  if decide (length ≠ _length this)
  then enumerableContentDidChange None (with_length length this)
  else this.

(** [while(--len >= 0) content[start+len] = array[len]]. *)
Fixpoint provide_loop (start len : nat) (array : list JsVal)
    (content : list Cell) : list Cell :=
  match len with
  | O => content
  | S len => provide_loop start len array (put (start + len) (item array len) content)
  end.

(** [provideObjectsInRange(range, array)]. *)
Definition provideObjectsInRange (range : Range.t) (array : list JsVal)
    (this : SparseArray) : SparseArray :=
  let content := content_or_new this in
  let content := provide_loop (Range.start range) (Range.length range) array content in
  enumerableContentDidChange None (with_content (Some content) this).

(** [provideObjectAtIndex(index, object)]: the scratch array holds [object]
    at 0 and the scratch range has length 1. *)
Definition provideObjectAtIndex (index : nat) (object : JsVal)
    (this : SparseArray) : SparseArray :=
  provideObjectsInRange (Range.make index 1) [object] this.

(** [while (--loc>=start) content[loc] = undefined]. *)
Fixpoint clear_loop (start loc : nat) (content : list Cell) : list Cell :=
  match loc with
  | O => content
  | S loc =>
      if decide (start ≤ loc)%nat
      then clear_loop start loc (put loc JUndefined content)
      else content
  end.

(** [objectsDidChangeInRange(range)]. *)
Definition objectsDidChangeInRange (range : Range.t) (this : SparseArray)
  : SparseArray :=
  let this :=
    match _sa_content this with
    | Some content =>
        if decide (Range.start range = 0%nat ∧
                   (List.length content ≤ maxRange range)%nat)
        then with_content None this
        else
          let start := Range.start range in
          let loc := Nat.min (start + Range.length range) (List.length content) in
          with_content (Some (clear_loop start loc content)) this
    | None => this
    end in
  enumerableContentDidChange (Some range) this.

(** ** The delegate *)

(** Modelled from the spec: the delegate is an object of the application,
    not of this file.  A delegate that answers at once does so by calling
    back into the array while its method runs, through the entry points
    for writing elements and for setting a length; one that answers later,
    or never, calls nothing.  None of these entry points replaces the
    array object held in [_sa_content], so whoever holds that array sees
    what the delegate wrote. *)
Inductive Response :=
| ProvideLength (n : Z)
| ProvideObjectsInRange (range : Range.t) (array : list JsVal)
| ProvideObjectAtIndex (index : nat) (object : JsVal).

Definition respond1 (this : SparseArray) (r : Response) : SparseArray :=
  match r with
  | ProvideLength n => provideLength (LNum n) this
  | ProvideObjectsInRange range array => provideObjectsInRange range array this
  | ProvideObjectAtIndex index object => provideObjectAtIndex index object this
  end.

Definition respond (rs : list Response) (this : SparseArray) : SparseArray :=
  foldl respond1 this rs.

(** A method that is told something: it sees the array and its arguments
    and may answer at once. *)
Definition Command := SparseArray → list Arg → list Response.
(** A method that is asked something: only its result is used. *)
Definition Query := SparseArray → list Arg → JsVal.

(** The delegate's own property named [del], if it has one. *)
Record DelProperty := {
  del_sparseArrayDidRequestIndexOf : option Query
}.

Record Delegate := {
  sparseArrayDidRequestLength : option Command;
  sparseArrayDidRequestRange : option Command;
  sparseArrayDidRequestIndex : option Command;
  sparseArrayDidRequestIndexOf : option Query;
  sparseArrayShouldReplace : option Query;
  sparseArrayDidReset : option Command;
  del : option DelProperty
}.

(** Calling a command: the call is recorded, then what the delegate does
    in answer is applied. *)
Definition invoke (f : Command) (method : string) (args : list Arg)
    (this : SparseArray) : SparseArray :=
  respond (f this args) (emit (DelegateCall method args) this).


(** Calling a query: the call is recorded and the result returned. *)
Definition ask (f : Query) (method : string) (args : list Arg)
    (this : SparseArray) : JsVal * SparseArray :=
  (f this args, emit (DelegateCall method args) this).

(** The arguments of [del.sparseArrayShouldReplace(this, idx, amt, objects)]. *)
Definition replace_args (idx amt : nat) (objects : list JsVal) : list Arg :=
  [AThis; ANumber (Finite (Z.of_nat idx)); ANumber (Finite (Z.of_nat amt));
   AArray objects].

(** Modelled from the spec: [content.replace(idx, amt, objects)], the
    [replace] that the array mixin gives to native arrays, is defined
    outside this file; it splices the backing array at [idx], removing
    [amt] elements and inserting [objects] in order, which shifts what
    follows by the difference in size. *)
Definition array_replace (idx amt : nat) (objects : list JsVal)
    (content : list Cell) : list Cell :=
  splice idx amt objects content.

(** The second half of [replace]: "go ahead and apply to local content",
    "update length", and the notification.  [objects.length - amt] and
    [this._length += delta] are computed on doubles; an infinity stays the
    infinity it is, whatever is added. *)
Definition apply_replace (idx amt : nat) (objects : list JsVal)
    (this : SparseArray) : SparseArray :=
  let content := content_or_new this in
  let this := with_content (Some (array_replace idx amt objects content)) this in
  let delta := nearest (Z.of_nat (List.length objects) - Z.of_nat amt) in
  let this :=
    match _length this with
    | LNum n =>
        if decide (delta ≠ 0) then
          propertyDidChange "length"
            (with_length (double_sum n delta) (propertyWillChange "length" this))
        else this
    | LInfinity negative =>
        if decide (delta ≠ 0) then
          propertyDidChange "length"
            (with_length (LInfinity negative) (propertyWillChange "length" this))
        else this
    | LUndefined | LNull => this
    end in
  enumerableContentDidChange None this.

Section Methods.

(** [windowSize] is a free identifier of [requestIndex]: no parameter, no
    local and no property of that name exists in the file.  [None] is the
    case where no global of that name exists either, [Some d] the case
    where the page defines an integer global. *)
Variable windowSize : option Z.

(** [this.delegate]. *)
Variable delegate : option Delegate.

(** [length], the body of the computed property.  (That the property is
    declared cacheable concerns the observable mixin, which is not part of
    this file.) *)
Definition length (this : SparseArray) : JsNumber * SparseArray :=
  let this :=
    match delegate with
    | Some del =>
        if none (_length this) then
          match sparseArrayDidRequestLength del with
          | Some f => invoke f "sparseArrayDidRequestLength" [AThis] this
          | None => this
          end
        else this
    | None => this
    end in
  (match _length this with
   | LNum n => Finite n
   | LInfinity _ => NotFinite
   | LUndefined | LNull => Finite 0
   end, this).

(** [while(--len >= 0) del.sparseArrayDidRequestIndex(start + len)]. *)
Fixpoint request_each (f : Command) (start : JsNumber) (len : nat)
    (this : SparseArray) : SparseArray :=
  match len with
  | O => this
  | S len =>
      request_each f start len
        (invoke f "sparseArrayDidRequestIndex"
           [ANumber (num_add start (Z.of_nat len))] this)
  end.

(** [requestIndex(idx)]. *)
Definition requestIndex (idx : nat) (this : SparseArray)
  : Completion SparseArray :=
  match delegate with
  | None => Normal this
  | Some del =>
      let len := rangeWindowSize this in
      let start := Finite (Z.of_nat idx) in
      start ← (if 1 <? len then
                 match windowSize with
                 | None => Throw (ReferenceError "windowSize")
                 | Some d => Normal (floor_div (Z.of_nat idx) d)
                 end
               else Normal start);
      let len := if len <? 1 then 1 else len in
      match sparseArrayDidRequestRange del with
      | Some f =>
          Normal (invoke f "sparseArrayDidRequestRange"
                    [AThis; ARange start len] this)
      | None =>
          match sparseArrayDidRequestIndex del with
          | Some f => Normal (request_each f start (Z.to_nat len) this)
          | None => Normal this
          end
      end
  end.

(** [objectAt(idx)].  The delegate writes into the array that [content]
    names, so the second read sees what it provided. *)
Definition objectAt (idx : nat) (this : SparseArray)
  : Completion (JsVal * SparseArray) :=
  let content := content_or_new this in
  let this := with_content (Some content) this in
  let ret := get content idx in
  if decide (ret = JUndefined) then
    this ← requestIndex idx this;
    Normal (cached this idx, this)
  else Normal (ret, this).

(** [content.indexOf(obj)] on the cache, the branch of [indexOf] taken
    without a delegate that implements the lookup. *)
Definition scan (obj : JsVal) (this : SparseArray) : JsVal * SparseArray :=
  let content := content_or_new this in
  let this := with_content (Some content) this in
  (JNum (index_from obj content 0), this).

(** [indexOf(obj)].  The call goes to [del.del], the property named [del]
    of the delegate, not to the delegate. *)
Definition indexOf (obj : JsVal) (this : SparseArray)
  : Completion (JsVal * SparseArray) :=
  match delegate with
  | Some d =>
      match sparseArrayDidRequestIndexOf d with
      | Some _ =>
          match del d with
          | None => Throw (TypeError "del.del is undefined")
          | Some inner =>
              match del_sparseArrayDidRequestIndexOf inner with
              | None =>
                  Throw (TypeError
                           "del.del.sparseArrayDidRequestIndexOf is not a function")
              | Some f =>
                  Normal (ask f "sparseArrayDidRequestIndexOf"
                            [AThis; AValue obj] this)
              end
          end
      | None => Normal (scan obj this)
      end
  | None => Normal (scan obj this)
  end.

(** The first half of [replace]: "if we have a delegate, get permission
    to make the replacement".  The result tells whether the edit goes
    ahead. *)
Definition get_permission (idx amt : nat) (objects : list JsVal)
    (this : SparseArray) : bool * SparseArray :=
  match delegate with
  | Some del =>
      match sparseArrayShouldReplace del with
      | None => (false, this)
      | Some f =>
          let '(r, this) :=
            ask f "sparseArrayShouldReplace" (replace_args idx amt objects) this in
          (truthy r, this)
      end
  | None => (true, this)
  end.

(** [replace(idx, amt, objects)]. *)
Definition replace (idx amt : nat) (objects : option (list JsVal))
    (this : SparseArray) : SparseArray :=
  let objects := default [] objects in
  let '(permitted, this) := get_permission idx amt objects this in
  if permitted then apply_replace idx amt objects this else this.


End Methods.

(** [SC.SparseArray.array(len)]. *)
Definition array (len : option Z) : SparseArray :=
  {| _sa_content := None;
     _length := LNum (match len with Some n => n | None => 0 end);
     rangeWindowSize := 1;
     trace := [] |}.

(** ** Predicates used in the statements *)


(** [j] lies in the half open interval of [range]. *)
Definition in_range (range : Range.t) (j : nat) : Prop :=
  (Range.start range ≤ j < Range.start range + Range.length range)%nat.

#[global] Instance in_range_dec range j : Decision (in_range range j).
Proof. unfold in_range. apply _. Defined.

(** The delegate's answer [r] writes the element at [idx]. *)
Definition writes (r : Response) (idx : nat) : Prop :=
  match r with
  | ProvideLength _ => False
  | ProvideObjectsInRange range _ => in_range range idx
  | ProvideObjectAtIndex index _ => index = idx
  end.



(** While they run, the commands of the delegate write nothing at [idx];
    a delegate that answers later is the plain case. *)
Definition spares_index (f : option Command) (idx : nat) : Prop :=
  ∀ g, f = Some g → ∀ this args, Forall (λ r, ¬ writes r idx) (g this args).

(** The delegate, if there is one, writes nothing at [idx] while any of
    its commands runs. *)
Definition spares (delegate : option Delegate) (idx : nat) : Prop :=
  ∀ d, delegate = Some d →
    spares_index (sparseArrayDidRequestLength d) idx ∧
    spares_index (sparseArrayDidRequestRange d) idx ∧
    spares_index (sparseArrayDidRequestIndex d) idx ∧
    spares_index (sparseArrayDidReset d) idx.

(** [objects.length - amt]. *)
Definition delta (amt : nat) (objects : list JsVal) : Z :=
  Z.of_nat (List.length objects) - Z.of_nat amt.

(** The edit is let through: there is no delegate, or the delegate has
    [sparseArrayShouldReplace] and its result is truthy. *)
Definition permits (delegate : option Delegate) (idx amt : nat)
    (objects : list JsVal) (this : SparseArray) : Prop :=
  match delegate with
  | None => True
  | Some d =>
      ∃ q, sparseArrayShouldReplace d = Some q ∧
           truthy (q this (replace_args idx amt objects)) = true
  end.




#[global] Instance writes_dec r idx : Decision (writes r idx).
Proof. destruct r; simpl; apply _. Defined.

(** The command [f] with what it writes at [idx] left out of its answers. *)
Definition sparing_command (idx : nat) (f : Command) : Command :=
  λ this args, filter (λ r, ¬ writes r idx) (f this args).

(** The delegate [d] with what its commands write at [idx] left out. *)
Definition sparing (idx : nat) (d : Delegate) : Delegate :=
  {| sparseArrayDidRequestLength :=
       sparing_command idx <$> sparseArrayDidRequestLength d;
     sparseArrayDidRequestRange :=
       sparing_command idx <$> sparseArrayDidRequestRange d;
     sparseArrayDidRequestIndex :=
       sparing_command idx <$> sparseArrayDidRequestIndex d;
     sparseArrayDidRequestIndexOf := sparseArrayDidRequestIndexOf d;
     sparseArrayShouldReplace := sparseArrayShouldReplace d;
     sparseArrayDidReset := sparing_command idx <$> sparseArrayDidReset d;
     del := del d |}.


(** ** Delegates and arrays used as concrete inputs *)

(** A delegate with no method at all. *)
Definition no_capability : Delegate :=
  {| sparseArrayDidRequestLength := None;
     sparseArrayDidRequestRange := None;
     sparseArrayDidRequestIndex := None;
     sparseArrayDidRequestIndexOf := None;
     sparseArrayShouldReplace := None;
     sparseArrayDidReset := None;
     del := None |}.

(** A delegate that takes range requests and answers them later. *)
Definition fetches_later : Delegate :=
  {| sparseArrayDidRequestLength := None;
     sparseArrayDidRequestRange := Some (λ _ _, []);
     sparseArrayDidRequestIndex := None;
     sparseArrayDidRequestIndexOf := None;
     sparseArrayShouldReplace := None;
     sparseArrayDidReset := None;
     del := None |}.


(** The delegate of the end to end scenario: it resolves the length to 10
    and fills a requested range at once, index [k] with [k * 10]. *)
Definition tens : Delegate :=
  {| sparseArrayDidRequestLength := Some (λ _ _, [ProvideLength 10]);
     sparseArrayDidRequestRange :=
       Some (λ _ args,
               match args with
               | [AThis; ARange (Finite start) len] =>
                   [ProvideObjectsInRange
                      (Range.make (Z.to_nat start) (Z.to_nat len))
                      ((λ k, JNum ((start + Z.of_nat k) * 10)) <$> seq 0 (Z.to_nat len))]
               | _ => []
               end);
     sparseArrayDidRequestIndex := None;
     sparseArrayDidRequestIndexOf := None;
     sparseArrayShouldReplace := None;
     sparseArrayDidReset := None;
     del := None |}.

(** A delegate that only takes requests for single indices. *)
Definition fetches_indices : Delegate :=
  {| sparseArrayDidRequestLength := None;
     sparseArrayDidRequestRange := None;
     sparseArrayDidRequestIndex := Some (λ _ _, []);
     sparseArrayDidRequestIndexOf := None;
     sparseArrayShouldReplace := None;
     sparseArrayDidReset := None;
     del := None |}.

(** A delegate that implements the lookup and says 4. *)
Definition looks_up : Delegate :=
  {| sparseArrayDidRequestLength := None;
     sparseArrayDidRequestRange := None;
     sparseArrayDidRequestIndex := None;
     sparseArrayDidRequestIndexOf := Some (λ _ _, JNum 4);
     sparseArrayShouldReplace := None;
     sparseArrayDidReset := None;
     del := None |}.

(** A delegate that answers every request for an edit with [answer]. *)
Definition gatekeeper (answer : JsVal) : Delegate :=
  {| sparseArrayDidRequestLength := None;
     sparseArrayDidRequestRange := None;
     sparseArrayDidRequestIndex := None;
     sparseArrayDidRequestIndexOf := None;
     sparseArrayShouldReplace := Some (λ _ _, answer);
     sparseArrayDidReset := None;
     del := None |}.

(** An array as [create()] makes it: nothing cached, no length. *)
Definition created : SparseArray :=
  {| _sa_content := None; _length := LUndefined; rangeWindowSize := 1; trace := [] |}.

(** An empty array of declared length 10 with window size [w]. *)
Definition windowed (w : Z) : SparseArray :=
  {| _sa_content := None; _length := LNum 10; rangeWindowSize := w; trace := [] |}.

(** An array of declared length 5 with all five elements loaded. *)
Definition five : SparseArray :=
  provideObjectsInRange (Range.make 0 5)
    [JNum 0; JNum 10; JNum 20; JNum 30; JNum 40] (array (Some 5)).

(** A delegate that takes requests for ranges and for single indices, and
    answers later. *)
Definition fetches_both : Delegate :=
  {| sparseArrayDidRequestLength := None;
     sparseArrayDidRequestRange := Some (λ _ _, []);
     sparseArrayDidRequestIndex := Some (λ _ _, []);
     sparseArrayDidRequestIndexOf := None;
     sparseArrayShouldReplace := None;
     sparseArrayDidReset := None;
     del := None |}.

(** * Properties *)

(** ** Elements of a native array *)

Lemma get_put_eq idx v content : get (put idx v content) idx = v.
Proof.
  unfold get, put. case_decide as Hlt.
  - by rewrite list_lookup_insert_eq.
  - rewrite lookup_app_r; [|lia]. rewrite lookup_app_r; rewrite length_replicate; [|lia].
    by replace (idx - List.length content - (idx - List.length content))%nat with 0%nat by lia.
Qed.

Lemma get_put_ne idx j v content : idx ≠ j → get (put idx v content) j = get content j.
Proof.
  intros Hne. unfold get, put. case_decide as Hlt.
  - by rewrite list_lookup_insert_ne.
  - destruct (decide (j < List.length content)%nat) as [Hj|Hj].
    + by rewrite lookup_app_l.
    + rewrite (lookup_ge_None_2 content j); [|lia].
      rewrite lookup_app_r; [|lia].
      destruct (decide (j < idx)%nat) as [Hji|Hji].
      * rewrite lookup_app_l; [|rewrite length_replicate; lia].
        rewrite lookup_replicate_2; [done|lia].
      * rewrite lookup_ge_None_2; [done|].
        rewrite length_app, length_replicate. simpl. lia.
Qed.

Lemma get_put idx j v content :
  get (put idx v content) j = if decide (idx = j) then v else get content j.
Proof. case_decide; [subst; apply get_put_eq | by apply get_put_ne]. Qed.

Lemma length_put idx v content :
  List.length (put idx v content) = (List.length content `max` S idx)%nat.
Proof.
  unfold put. case_decide.
  - rewrite length_insert. lia.
  - rewrite !length_app, length_replicate. simpl. lia.
Qed.

Lemma get_ge content j : (List.length content ≤ j)%nat → get content j = JUndefined.
Proof. intros H. unfold get. by rewrite lookup_ge_None_2. Qed.

(** The provider's loop writes [array[k]] at [start + k] for every [k]
    below [len] and nothing else. *)
Lemma get_provide_loop start len array content j :
  get (provide_loop start len array content) j =
  if decide (start ≤ j < start + len)%nat then item array (j - start) else get content j.
Proof.
  revert content. induction len as [|len IH]; intros content; simpl.
  - case_decide; [lia|done].
  - rewrite IH, get_put.
    repeat case_decide; try lia; try done.
    subst. f_equal. lia.
Qed.

(** The invalidation loop clears the indices from [start] up to [loc] and
    nothing else. *)
Lemma get_clear_loop start loc content j :
  get (clear_loop start loc content) j =
  if decide (start ≤ j < loc)%nat then JUndefined else get content j.
Proof.
  revert content. induction loc as [|loc IH]; intros content; simpl.
  - case_decide; [lia|done].
  - destruct (decide (start ≤ loc)%nat) as [Hle|Hgt].
    + rewrite IH, get_put. repeat case_decide; try lia; done.
    + clear IH. case_decide; [lia|done].
Qed.

Lemma length_clear_loop start loc content :
  (loc ≤ List.length content)%nat →
  List.length (clear_loop start loc content) = List.length content.
Proof.
  revert content. induction loc as [|loc IH]; intros content Hle; simpl; [done|].
  case_decide; [|done].
  rewrite IH; rewrite length_put; lia.
Qed.


Lemma get_splice_inserted idx amt objects content k :
  (idx ≤ List.length content)%nat → (k < List.length objects)%nat →
  get (splice idx amt objects content) (idx + k) = item objects k.
Proof.
  intros Hidx Hk. unfold get, splice, item.
  rewrite lookup_app_r; rewrite length_take; [|lia].
  replace (idx + k - idx `min` List.length content)%nat with k by lia.
  rewrite lookup_app_l; [|by rewrite length_fmap].
  rewrite list_lookup_fmap. by destruct (objects !! k).
Qed.

Lemma get_splice_shifted idx amt objects content j :
  (idx + amt ≤ j)%nat →
  get (splice idx amt objects content) (j + List.length objects - amt) = get content j.
Proof.
  intros Hj. unfold get, splice.
  rewrite lookup_app_r; rewrite length_take; [|lia].
  rewrite lookup_app_r; rewrite length_fmap; [|lia].
  rewrite lookup_drop.
  destruct (decide (idx ≤ List.length content)%nat) as [Hidx|Hidx].
  - replace (idx + amt + (j + List.length objects - amt -
               idx `min` List.length content - List.length objects))%nat
      with j by lia.
    done.
  - rewrite (lookup_ge_None_2 content j); [|lia].
    rewrite lookup_ge_None_2; [done|lia].
Qed.

(** ** The trace *)

Lemma calls_emit e this :
  calls (emit e this) = calls this ++ (if is_call e then [e] else []).
Proof.
  unfold calls, emit; simpl. rewrite list.filter_app. f_equal.
  destruct e; reflexivity.
Qed.

Lemma notifications_emit e this :
  notifications (emit e this) =
  notifications this ++ (if is_call e then [] else [e]).
Proof.
  unfold notifications, emit; simpl. rewrite list.filter_app. f_equal.
  destruct e; reflexivity.
Qed.

Lemma calls_with_content c this : calls (with_content c this) = calls this.
Proof. reflexivity. Qed.

Lemma calls_with_length l this : calls (with_length l this) = calls this.
Proof. reflexivity. Qed.

Lemma notifications_with_content c this :
  notifications (with_content c this) = notifications this.
Proof. reflexivity. Qed.

Lemma notifications_with_length l this :
  notifications (with_length l this) = notifications this.
Proof. reflexivity. Qed.

(** ** What the delegate's answers can and cannot change *)

(** The entry points open to the delegate make no call on the delegate and
    leave the window size alone. *)
Lemma calls_respond1 this r : calls (respond1 this r) = calls this.
Proof.
  destruct r; simpl.
  - unfold provideLength; simpl. case_decide; [|done].
    unfold enumerableContentDidChange. rewrite calls_emit; simpl.
    by rewrite app_nil_r.
  - unfold provideObjectsInRange, enumerableContentDidChange.
    rewrite calls_emit; simpl. by rewrite app_nil_r.
  - unfold provideObjectAtIndex, provideObjectsInRange, enumerableContentDidChange.
    rewrite calls_emit; simpl. by rewrite app_nil_r.
Qed.

Lemma calls_respond rs this : calls (respond rs this) = calls this.
Proof.
  revert this. induction rs as [|r rs IH]; intros this; simpl; [done|].
  unfold respond in *; simpl. by rewrite IH, calls_respond1.
Qed.


Lemma calls_invoke f method args this :
  calls (invoke f method args this) = calls this ++ [DelegateCall method args].
Proof. unfold invoke. by rewrite calls_respond, calls_emit. Qed.

(** With a window size above 1: an unbound [windowSize] raises; bound to
    [g] the start becomes [floor(idx / g)], which is not multiplied back. *)
Lemma requestIndex_windowed windowSize d idx this :
  1 < rangeWindowSize this →
  requestIndex windowSize (Some d) idx this =
  match windowSize with
  | None => Throw (ReferenceError "windowSize")
  | Some g =>
      let start := floor_div (Z.of_nat idx) g in
      Normal
        match sparseArrayDidRequestRange d with
        | Some f =>
            invoke f "sparseArrayDidRequestRange"
              [AThis; ARange start (rangeWindowSize this)] this
        | None =>
            match sparseArrayDidRequestIndex d with
            | Some f => request_each f start (Z.to_nat (rangeWindowSize this)) this
            | None => this
            end
        end
  end.
Proof.
  intros Hw. unfold requestIndex.
  destruct (Z.ltb_spec 1 (rangeWindowSize this)) as [_|?]; [|lia].
  destruct windowSize as [g|]; [|done]. simpl.
  destruct (Z.ltb_spec (rangeWindowSize this) 1) as [?|_]; [lia|].
  destruct (sparseArrayDidRequestRange d); [done|].
  by destruct (sparseArrayDidRequestIndex d).
Qed.

Section MethodFacts.

Variable windowSize : option Z.
Variable delegate : option Delegate.

(** The calls of the fallback loop: one per index, from the last index of
    the window down to the first, each with the index as its only
    argument. *)
Lemma calls_request_each f start len this :
  calls (request_each f start len this) =
  calls this ++
  ((λ k, DelegateCall "sparseArrayDidRequestIndex"
           [ANumber (num_add start (Z.of_nat k))]) <$> reverse (seq 0 len)).
Proof.
  revert this. induction len as [|len IH]; intros this.
  - simpl. by rewrite app_nil_r.
  - cbn [request_each]. rewrite IH, calls_invoke.
    rewrite seq_S, reverse_app. simpl. by rewrite <- app_assoc.
Qed.

(** With the window size at most 1 (1 is the default) the request is for
    the index alone: the range [(idx, 1)], or the single index. *)
Lemma requestIndex_unwindowed idx this :
  rangeWindowSize this ≤ 1 →
  requestIndex windowSize delegate idx this =
  Normal
    match delegate with
    | None => this
    | Some d =>
        match sparseArrayDidRequestRange d with
        | Some f =>
            invoke f "sparseArrayDidRequestRange"
              [AThis; ARange (Finite (Z.of_nat idx)) 1] this
        | None =>
            match sparseArrayDidRequestIndex d with
            | Some f =>
                invoke f "sparseArrayDidRequestIndex"
                  [ANumber (Finite (Z.of_nat idx))] this
            | None => this
            end
        end
    end.
Proof.
  intros Hw. unfold requestIndex. destruct delegate as [d|]; [|done].
  destruct (Z.ltb_spec 1 (rangeWindowSize this)) as [?|_]; [lia|]. simpl.
  destruct (sparseArrayDidRequestRange d) as [f|].
  - destruct (Z.ltb_spec (rangeWindowSize this) 1); [done|].
    by replace (rangeWindowSize this) with 1 by lia.
  - destruct (sparseArrayDidRequestIndex d) as [f|]; [|done].
    replace (Z.to_nat (if rangeWindowSize this <? 1 then 1 else rangeWindowSize this))
      with 1%nat by (destruct (Z.ltb_spec (rangeWindowSize this) 1); lia).
    simpl. by rewrite Z.add_0_r.
Qed.


(** ** Reading *)

(** A hit: the element is returned and the delegate is not called. *)
Lemma objectAt_hit idx this :
  cached this idx ≠ JUndefined →
  objectAt windowSize delegate idx this =
  Normal (cached this idx, with_content (Some (content_or_new this)) this).
Proof.
  intros Hv. unfold objectAt. fold (cached this idx). by case_decide.
Qed.

(** A miss: the index is requested and read again. *)
Lemma objectAt_miss idx this :
  cached this idx = JUndefined →
  objectAt windowSize delegate idx this =
  this' ← requestIndex windowSize delegate idx
            (with_content (Some (content_or_new this)) this);
  Normal (cached this' idx, this').
Proof.
  intros Hv. unfold objectAt. fold (cached this idx). by case_decide.
Qed.


End MethodFacts.

(** ** What is cached where *)

Lemma cached_emit e this idx : cached (emit e this) idx = cached this idx.
Proof. reflexivity. Qed.

Lemma cached_with_length l this idx : cached (with_length l this) idx = cached this idx.
Proof. reflexivity. Qed.

Lemma cached_content_or_new this idx :
  cached (with_content (Some (content_or_new this)) this) idx = cached this idx.
Proof. reflexivity. Qed.

(** Reading a cached element needs an array to be there; the read then
    leaves the receiver as it is. *)
Lemma with_content_cached this idx :
  cached this idx ≠ JUndefined →
  with_content (Some (content_or_new this)) this = this.
Proof.
  destruct this as [[c|] l w t]; [done|].
  unfold cached, content_or_new, get; simpl. done.
Qed.

Lemma cached_lt_length this idx :
  cached this idx ≠ JUndefined → (idx < List.length (content_or_new this))%nat.
Proof.
  intros Hv. destruct (decide (idx < List.length (content_or_new this))%nat); [done|].
  exfalso. apply Hv. apply get_ge. lia.
Qed.

Lemma cached_provideObjectsInRange range array this j :
  cached (provideObjectsInRange range array this) j =
  if decide (in_range range j)
  then item array (j - Range.start range)
  else cached this j.
Proof.
  unfold provideObjectsInRange, cached at 1, content_or_new at 1; simpl.
  apply get_provide_loop.
Qed.

Lemma cached_provideObjectAtIndex index object this j :
  cached (provideObjectAtIndex index object this) j =
  if decide (index = j) then object else cached this j.
Proof.
  unfold provideObjectAtIndex. rewrite cached_provideObjectsInRange.
  unfold in_range; simpl. repeat case_decide; try lia; [|done].
  subst. by replace (j - j)%nat with 0%nat by lia.
Qed.

Lemma cached_provideLength n this j :
  cached (provideLength (LNum n) this) j = cached this j.
Proof. unfold provideLength; simpl. by case_decide. Qed.

Lemma cached_objectsDidChangeInRange range this j :
  cached (objectsDidChangeInRange range this) j =
  if decide (in_range range j) then JUndefined else cached this j.
Proof.
  unfold objectsDidChangeInRange, enumerableContentDidChange, in_range, maxRange.
  rewrite cached_emit.
  destruct this as [[content|] l w t]; simpl.
  - destruct (decide (Range.start range = 0%nat ∧ _)) as [[H0 Hmax]|Hpart];
      unfold cached, content_or_new; simpl.
    + case_decide; [by rewrite get_ge by (simpl; lia)|].
      rewrite (get_ge content); [by rewrite get_ge by (simpl; lia)|lia].
    + rewrite get_clear_loop.
      repeat case_decide; try lia; try done.
      apply get_ge. lia.
  - unfold cached, content_or_new; simpl. case_decide; [|done].
    by rewrite get_ge by (simpl; lia).
Qed.




(** ** Doubles that hold integers *)

Lemma nearest_exact x : Z.abs x ≤ 2 ^ 53 → nearest x = x.
Proof.
  intros Hx. unfold nearest.
  by destruct (Z.leb_spec (Z.abs x) (2 ^ 53)) as [_|?]; [|lia].
Qed.

(** Rounding never makes a zero of an integer that is not zero. *)
Lemma nearest_eq_0 x : nearest x = 0 ↔ x = 0.
Proof.
  split; [|by intros ->].
  unfold nearest. destruct (Z.leb_spec (Z.abs x) (2 ^ 53)) as [_|Hbig]; [done|].
  set (a := Z.abs x) in *.
  assert (0 < a) as Ha by lia.
  set (u := 2 ^ (Z.log2 a - 52)).
  assert (53 ≤ Z.log2 a) as Hlog.
  { apply Z.log2_le_pow2; [done|lia]. }
  assert (0 < u) as Hu by (apply Z.pow_pos_nonneg; lia).
  assert (u ≤ a) as Hua.
  { destruct (Z.log2_spec a Ha) as [Hlo _].
    etrans; [|exact Hlo]. apply Z.pow_le_mono_r; lia. }
  assert (0 < a / u) as Hq by (apply Z.div_str_pos; lia).
  assert (0 < (if 2 * (a mod u) <? u then a / u
               else if u <? 2 * (a mod u) then a / u + 1
               else if Z.even (a / u) then a / u else a / u + 1)) as Hq'.
  { repeat case_match; lia. }
  intros Hzero. apply Z.mul_eq_0 in Hzero as [Hs|Hm].
  - by apply Z.sgn_null_iff.
  - apply Z.mul_eq_0 in Hm. lia.
Qed.

Lemma double_sum_exact a b : Z.abs (a + b) ≤ 2 ^ 53 → double_sum a b = LNum (a + b).
Proof.
  intros Hab. unfold double_sum. rewrite nearest_exact by done.
  destruct (Z.ltb_spec MAX_VALUE (Z.abs (a + b))) as [Hover|_]; [|done].
  assert (2 ^ 53 ≤ MAX_VALUE) by (by vm_compute). lia.
Qed.

(** ** The mutation gateway *)

(** What the second half of [replace] does to the array. *)
Lemma apply_replace_spec idx amt objs this :
  let this' := apply_replace idx amt objs this in
  _sa_content this' = Some (splice idx amt objs (content_or_new this)) ∧
  _length this' =
    match _length this with
    | LNum n =>
        if decide (delta amt objs = 0) then LNum n
        else double_sum n (nearest (delta amt objs))
    | l => l
    end ∧
  rangeWindowSize this' = rangeWindowSize this ∧
  notifications this' =
    notifications this ++
    (if decide (delta amt objs ≠ 0 ∧ none (_length this) = false)
     then [PropertyWillChange "length"; PropertyDidChange "length"]
     else []) ++
    [EnumerableContentDidChange None] ∧
  calls this' = calls this.
Proof.
  unfold apply_replace, array_replace. fold (delta amt objs).
  change (_length (with_content _ this)) with (_length this).
  unfold enumerableContentDidChange, propertyDidChange, propertyWillChange.
  destruct (decide (nearest (delta amt objs) ≠ 0)) as [Hd|Hd].
  - assert (delta amt objs ≠ 0) as Hd' by (by rewrite <- nearest_eq_0).
    destruct (_length this) as [| |n|negative] eqn:Hlen.
    + rewrite notifications_emit, calls_emit. simpl. rewrite app_nil_r.
      repeat split; try done. rewrite decide_False; [done | by intros []].
    + rewrite notifications_emit, calls_emit. simpl. rewrite app_nil_r.
      repeat split; try done. rewrite decide_False; [done | by intros []].
    + rewrite !notifications_emit, !calls_emit, notifications_with_length,
        calls_with_length, !notifications_emit, !calls_emit,
        notifications_with_content, calls_with_content.
      simpl. rewrite !app_nil_r, <- !app_assoc.
      repeat split; try done.
      * by rewrite decide_False.
      * by rewrite decide_True.
    + rewrite !notifications_emit, !calls_emit, notifications_with_length,
        calls_with_length, !notifications_emit, !calls_emit,
        notifications_with_content, calls_with_content.
      simpl. rewrite !app_nil_r, <- !app_assoc.
      repeat split; try done. by rewrite decide_True.
  - apply dec_stable in Hd. rewrite nearest_eq_0 in Hd.
    assert (∀ l : Length,
              (if decide (delta amt objs ≠ 0 ∧ none l = false)
               then [PropertyWillChange "length"; PropertyDidChange "length"]
               else []) = []) as Hnot.
    { intros l. rewrite decide_False; [done|]. intros [Hne _]. by apply Hne. }
    rewrite Hnot.
    destruct (_length this) as [| |n|negative] eqn:Hlen;
      rewrite notifications_emit, calls_emit; simpl; rewrite app_nil_r;
      repeat split; try done.
    by rewrite decide_True.
Qed.

(** An edit that is let through is applied, after the call that asked. *)
Lemma replace_permitted delegate idx amt objects this :
  permits delegate idx amt (default [] objects) this →
  replace delegate idx amt objects this =
  apply_replace idx amt (default [] objects)
    match delegate with
    | Some _ =>
        emit (DelegateCall "sparseArrayShouldReplace"
                (replace_args idx amt (default [] objects))) this
    | None => this
    end.
Proof.
  unfold permits, replace, get_permission. destruct delegate as [d|]; [|done].
  intros (q & -> & Hq). simpl. by rewrite Hq.
Qed.

(** An edit that is refused does nothing but the call that asked. *)
Lemma replace_refused d idx amt objects this :
  match sparseArrayShouldReplace d with
  | None => True
  | Some q => truthy (q this (replace_args idx amt (default [] objects))) = false
  end →
  replace (Some d) idx amt objects this =
  match sparseArrayShouldReplace d with
  | None => this
  | Some _ =>
      emit (DelegateCall "sparseArrayShouldReplace"
              (replace_args idx amt (default [] objects))) this
  end.
Proof.
  unfold replace, get_permission. destruct (sparseArrayShouldReplace d) as [q|]; [|done].
  simpl. by intros ->.
Qed.

Section Frame.

Variable windowSize : option Z.
Variable delegate : option Delegate.




(** ** Reset *)





(** The length query on an unresolved length calls
    [sparseArrayDidRequestLength], with the array, if the delegate has
    it. *)
Lemma calls_length_unresolved this :
  none (_length this) = true →
  calls (length delegate this).2 =
  calls this ++
  match delegate with
  | Some d =>
      match sparseArrayDidRequestLength d with
      | Some _ => [DelegateCall "sparseArrayDidRequestLength" [AThis]]
      | None => []
      end
  | None => []
  end.
Proof.
  intros Hnone. unfold length; simpl. rewrite Hnone.
  destruct delegate as [d|]; [|by rewrite app_nil_r].
  destruct (sparseArrayDidRequestLength d) as [f|]; [|by rewrite app_nil_r].
  apply calls_invoke.
Qed.

End Frame.

(** ** The request coalescer *)

Lemma floor_div_7_not_5 g : floor_div 7 g ≠ Finite 5.
Proof.
  unfold floor_div. destruct (Z.eqb_spec g 0) as [->|Hg]; [done|].
  intros [= Hq].
  pose proof (Z.div_mod 7 g Hg) as Hdm. rewrite Hq in Hdm.
  destruct (Z.lt_total g 0) as [Hneg|[?|Hpos]]; [|done|].
  - pose proof (Z.mod_neg_bound 7 g Hneg). lia.
  - pose proof (Z.mod_pos_bound 7 g Hpos). lia.
Qed.

(** C1, evaluated on the code at window size 5 and index 7: the read does
    not request the range (5, 5).  With [windowSize] unbound, as it is in
    the file, the read raises a ReferenceError before any request is made;
    with [windowSize] bound to any integer [g] the one request made is for
    the range starting at [floor(7 / g)], which is never 5. *)
Theorem requestIndex_window_5_index_7 (windowSize : option Z) :
  match objectAt windowSize (Some fetches_later) 7 (windowed 5) with
  | Throw e => windowSize = None ∧ e = ReferenceError "windowSize"
  | Normal (_, this) =>
      ∃ g, windowSize = Some g ∧
           calls this = [DelegateCall "sparseArrayDidRequestRange"
                           [AThis; ARange (floor_div 7 g) 5]] ∧
           floor_div 7 g ≠ Finite 5
  end.
Proof.
  rewrite objectAt_miss by done.
  rewrite requestIndex_windowed by (simpl; lia).
  destruct windowSize as [g|]; simpl; [|done].
  exists g. split; [done|]. split; [done|]. apply floor_div_7_not_5.
Qed.

(** The end to end scenario: the length resolves to 10; with the window
    size left at 1 the read of index 7 requests (7, 1) and hands back 70;
    with the window size set to 5 the read of index 7 raises. *)
Example scenario_length :
  (length (Some tens) created).1 = Finite 10.
Proof. reflexivity. Qed.

Example scenario_window_1 :
  ∃ this',
    objectAt None (Some tens) 7 created = Normal (JNum 70, this') ∧
    calls this' = [DelegateCall "sparseArrayDidRequestRange"
                     [AThis; ARange (Finite 7) 1]].
Proof. eexists. split; reflexivity. Qed.

Example scenario_window_5 :
  objectAt None (Some tens) 7
    {| _sa_content := None; _length := LUndefined; rangeWindowSize := 5; trace := [] |}
  = Throw (ReferenceError "windowSize").
Proof. reflexivity. Qed.


(** C6, evaluated on the code: with a delegate that has
    [sparseArrayDidRequestIndex] and not [sparseArrayDidRequestRange], and
    the window size at most 1, a read miss at [idx] calls
    [sparseArrayDidRequestIndex] once, and the only argument of that call
    is the index: the array is not passed. *)
Theorem fetchIndex_receives_the_index windowSize d f idx this :
  sparseArrayDidRequestRange d = None →
  sparseArrayDidRequestIndex d = Some f →
  rangeWindowSize this ≤ 1 →
  cached this idx = JUndefined →
  ∃ v this',
    objectAt windowSize (Some d) idx this = Normal (v, this') ∧
    calls this' =
    calls this ++
    [DelegateCall "sparseArrayDidRequestIndex" [ANumber (Finite (Z.of_nat idx))]].
Proof.
  intros Hr Hi Hw Hv. rewrite objectAt_miss by done.
  rewrite requestIndex_unwindowed by done. rewrite Hr, Hi. simpl.
  eexists _, _. split; [done|]. by rewrite calls_invoke.
Qed.

Lemma fetchIndex_receives_the_index_witness :
  ∃ v this',
    objectAt None (Some fetches_indices) 3 (windowed 1) = Normal (v, this') ∧
    calls this' =
    calls (windowed 1) ++
    [DelegateCall "sparseArrayDidRequestIndex" [ANumber (Finite 3)]].
Proof.
  apply (fetchIndex_receives_the_index None fetches_indices (λ _ _, []) 3 (windowed 1));
    [reflexivity | reflexivity | simpl; lia | reflexivity].
Defined.

(** ** Lookup by value *)


(** C5, evaluated on the code: when the delegate implements
    [sparseArrayDidRequestIndexOf] (and has no property named [del]),
    [indexOf] raises a TypeError instead of returning the delegate's
    result. *)
Theorem indexOf_delegate_lookup_throws d q obj this :
  sparseArrayDidRequestIndexOf d = Some q →
  del d = None →
  indexOf (Some d) obj this = Throw (TypeError "del.del is undefined").
Proof. intros Hq Hd. unfold indexOf. by rewrite Hq, Hd. Qed.

Lemma indexOf_delegate_lookup_throws_witness :
  indexOf (Some looks_up) (JStr "x") five = Throw (TypeError "del.del is undefined").
Proof.
  apply (indexOf_delegate_lookup_throws looks_up (λ _ _, JNum 4));
    reflexivity.
Defined.

(** C2, as the code has it: with a delegate attached that does not
    implement [sparseArrayShouldReplace], [replace] is refused and returns
    the array as it was: no splice, no change of length, no notification,
    no call.  Only without any delegate is the edit let through unasked:
    the cache is spliced; an unresolved length stays as it is and a
    resolved length [n] becomes [n + delta], for [delta = objects.length -
    amt], when [delta] and [n + delta] are integers that a double holds
    exactly (of magnitude at most 2^53); the change of length lies between
    a will and a did, and one content change is notified. *)
Theorem replace_without_capability d idx amt objects this :
  sparseArrayShouldReplace d = None →
  replace (Some d) idx amt objects this = this ∧
  let objs := default [] objects in
  let this' := replace None idx amt objects this in
  _sa_content this' = Some (splice idx amt objs (content_or_new this)) ∧
  (none (_length this) = true → _length this' = _length this) ∧
  (∀ n, _length this = LNum n →
        Z.abs (delta amt objs) ≤ 2 ^ 53 →
        Z.abs (n + delta amt objs) ≤ 2 ^ 53 →
        _length this' = LNum (n + delta amt objs)) ∧
  notifications this' =
    notifications this ++
    (if decide (delta amt objs ≠ 0 ∧ none (_length this) = false)
     then [PropertyWillChange "length"; PropertyDidChange "length"]
     else []) ++
    [EnumerableContentDidChange None] ∧
  calls this' = calls this.
Proof.
  intros Hcap. split.
  - rewrite replace_refused; by rewrite Hcap.
  - intros objs this'. unfold this'. rewrite replace_permitted by done.
    cbv iota. fold objs.
    pose proof (apply_replace_spec idx amt objs this) as (H1 & H2 & _ & H3 & H4).
    split; [done|]. split; [|split; [|done]].
    + intros Hnone. rewrite H2. by destruct (_length this).
    + intros n Hlen Hdelta Hsum. rewrite H2, Hlen. clear H3.
      case_decide as Hzero.
      * by rewrite Hzero, Z.add_0_r.
      * rewrite nearest_exact by done. by apply double_sum_exact.
Qed.

Lemma replace_without_capability_witness :
  replace (Some no_capability) 2 1 (Some [JStr "a"; JStr "b"]) five = five ∧
  let objs := [JStr "a"; JStr "b"] in
  let this' := replace None 2 1 (Some [JStr "a"; JStr "b"]) five in
  _sa_content this' = Some (splice 2 1 objs (content_or_new five)) ∧
  _length this' = LNum 6 ∧
  notifications this' =
    notifications five ++
    [PropertyWillChange "length"; PropertyDidChange "length"] ++
    [EnumerableContentDidChange None] ∧
  calls this' = calls five.
Proof.
  destruct (replace_without_capability no_capability 2 1
              (Some [JStr "a"; JStr "b"]) five eq_refl)
    as (Hrefused & Hcontent & _ & Hlength & Hnotified & Hcalls).
  split; [exact Hrefused|]. split; [exact Hcontent|].
  split; [|split; [exact Hnotified|exact Hcalls]].
  apply (Hlength 5); [reflexivity | by vm_compute | by vm_compute].
Defined.

(** C2, as stated, fails: with a delegate that has no method the edit is
    not applied, while without a delegate the same edit is. *)
Lemma replace_without_capability_differs :
  let this := array (Some 0) in
  let objects := Some [JStr "a"] in
  replace (Some no_capability) 0 0 objects this = this ∧
  replace None 0 0 objects this =
    {| _sa_content := Some [Some (JStr "a")];
       _length := LNum 1;
       rangeWindowSize := 1;
       trace := [PropertyWillChange "length"; PropertyDidChange "length";
                 EnumerableContentDidChange None] |} ∧
  replace (Some no_capability) 0 0 objects this ≠ replace None 0 0 objects this.
Proof. split; [reflexivity|]. split; [by vm_compute|]. by vm_compute. Qed.

(** C3: when the delegate's [sparseArrayShouldReplace] returns a falsy
    value, [replace] returns with the cache, the length and the
    notifications sent exactly as they were before the call; the call that
    asked is all that happened. *)
Theorem replace_veto_is_atomic d q idx amt objects this :
  sparseArrayShouldReplace d = Some q →
  truthy (q this (replace_args idx amt (default [] objects))) = false →
  let this' := replace (Some d) idx amt objects this in
  _sa_content this' = _sa_content this ∧
  _length this' = _length this ∧
  notifications this' = notifications this ∧
  trace this' =
    trace this ++
    [DelegateCall "sparseArrayShouldReplace" (replace_args idx amt (default [] objects))].
Proof.
  intros Hq Hfalsy this'. unfold this'.
  rewrite replace_refused; rewrite Hq; [|done].
  repeat split. rewrite notifications_emit. simpl. by rewrite app_nil_r.
Qed.

Lemma replace_veto_is_atomic_witness :
  let this' := replace (Some (gatekeeper (JBool false))) 2 1
                 (Some [JStr "a"; JStr "b"]) five in
  _sa_content this' = _sa_content five ∧
  _length this' = _length five ∧
  notifications this' = notifications five ∧
  trace this' =
    trace five ++
    [DelegateCall "sparseArrayShouldReplace"
       (replace_args 2 1 [JStr "a"; JStr "b"])].
Proof.
  apply (replace_veto_is_atomic (gatekeeper (JBool false)) (λ _ _, JBool false)
           2 1 (Some [JStr "a"; JStr "b"]) five);
    reflexivity.
Defined.

(** C4, as the code has it: an edit that is let through, on an array whose
    length is the number [n] and with [delta = objects.length - amt] not
    zero, makes the length the sum of [n] and [delta] as doubles, which is
    [n + delta] when [delta] and [n + delta] are integers that a double
    holds exactly (of magnitude at most 2^53); the change lies between one
    will and one did, before the content change is notified; and every
    element that was cached at an index [j] at or after [idx + amt] is
    afterwards at [j + objects.length - amt]. *)
Theorem replace_length_delta delegate idx amt objects this n :
  permits delegate idx amt (default [] objects) this →
  _length this = LNum n →
  delta amt (default [] objects) ≠ 0 →
  let objs := default [] objects in
  let this' := replace delegate idx amt objects this in
  _length this' = double_sum n (nearest (delta amt objs)) ∧
  (Z.abs (delta amt objs) ≤ 2 ^ 53 →
   Z.abs (n + delta amt objs) ≤ 2 ^ 53 →
   _length this' = LNum (n + delta amt objs)) ∧
  notifications this' =
    notifications this ++
    [PropertyWillChange "length"; PropertyDidChange "length";
     EnumerableContentDidChange None] ∧
  ∀ j, (idx + amt ≤ j)%nat →
       cached this' (j + List.length objs - amt) = cached this j.
Proof.
  intros Hp Hlen Hd objs this'. unfold this'.
  rewrite replace_permitted by done. fold objs.
  set (this1 := match delegate with Some _ => _ | None => this end).
  assert (content_or_new this1 = content_or_new this ∧
          _length this1 = _length this ∧
          notifications this1 = notifications this) as (Hc1 & Hl1 & Hn1).
  { unfold this1. destruct delegate; [|done].
    repeat split. rewrite notifications_emit. simpl. by rewrite app_nil_r. }
  pose proof (apply_replace_spec idx amt objs this1) as (Hc & Hl & _ & Hn & _).
  rewrite Hl1, Hlen in Hl. rewrite Hl1, Hlen, Hn1 in Hn. rewrite Hc1 in Hc.
  rewrite decide_False in Hl by done.
  split; [done|]. split; [|split].
  - intros Hdelta Hsum. rewrite Hl, nearest_exact by done.
    by apply double_sum_exact.
  - rewrite Hn. by rewrite decide_True.
  - intros j Hj. unfold cached, content_or_new at 1. rewrite Hc. simpl.
    by apply get_splice_shifted.
Qed.

Lemma replace_length_delta_witness :
  let this' := replace None 2 1 (Some [JStr "a"; JStr "b"]) five in
  _length this' = LNum 6 ∧
  notifications this' =
    notifications five ++
    [PropertyWillChange "length"; PropertyDidChange "length";
     EnumerableContentDidChange None] ∧
  ∀ j, (3 ≤ j)%nat → cached this' (j + 2 - 1) = cached five j.
Proof.
  destruct (replace_length_delta None 2 1 (Some [JStr "a"; JStr "b"]) five 5)
    as (_ & Hexact & Hnotified & Hshift);
    [exact I | reflexivity | discriminate |].
  split; [|split; [exact Hnotified|exact Hshift]].
  apply Hexact; by vm_compute.
Defined.

(** C4, as stated, fails where a double cannot hold the sum: on a length
    of 2^53 an edit that puts in one object leaves the length at 2^53, not
    at 2^53 + 1. *)
Lemma replace_length_beyond_2_53 :
  let this := array (Some (2 ^ 53)) in
  let this' := replace None 0 0 (Some [JStr "a"]) this in
  _length this = LNum 9007199254740992 ∧
  delta 0 [JStr "a"] = 1 ∧
  _length this' = LNum 9007199254740992 ∧
  _length this' ≠ LNum (9007199254740992 + 1).
Proof. by vm_compute. Qed.

(** ** Reset, invalidation, population *)





Lemma objectsDidChangeInRange_frame range this :
  _length (objectsDidChangeInRange range this) = _length this ∧
  rangeWindowSize (objectsDidChangeInRange range this) = rangeWindowSize this ∧
  trace (objectsDidChangeInRange range this) =
    trace this ++ [EnumerableContentDidChange (Some range)].
Proof.
  unfold objectsDidChangeInRange. destruct (_sa_content this); [|done].
  by case_decide.
Qed.






(** ** What a use of the array elsewhere keeps *)












Section Kept.

Variable windowSize : option Z.
Variable delegate : option Delegate.
Variables (idx : nat) (v : JsVal).









End Kept.



(** A delegate that writes nothing at [idx] in any call is the plain case
    of a call during which nothing is written at [idx]. *)
Lemma sparing_command_id idx g this args :
  Forall (λ r, ¬ writes r idx) (g this args) →
  sparing_command idx g this args = g this args.
Proof.
  intros Hg. unfold sparing_command. induction Hg as [|r rs Hr _ IH]; [done|].
  rewrite filter_cons, decide_True by done. by rewrite IH.
Qed.

Lemma invoke_sparing idx g method args this :
  Forall (λ r, ¬ writes r idx) (g this args) →
  invoke (sparing_command idx g) method args this = invoke g method args this.
Proof. intros Hg. unfold invoke. by rewrite sparing_command_id. Qed.

Lemma request_each_sparing idx g start len this :
  (∀ this args, Forall (λ r, ¬ writes r idx) (g this args)) →
  request_each (sparing_command idx g) start len this = request_each g start len this.
Proof.
  intros Hg. revert this. induction len as [|len IH]; intros this; simpl; [done|].
  by rewrite invoke_sparing, IH.
Qed.

Lemma requestIndex_sparing windowSize delegate idx j this :
  spares delegate idx →
  requestIndex windowSize (sparing idx <$> delegate) j this =
  requestIndex windowSize delegate j this.
Proof.
  intros Hs. unfold requestIndex. destruct delegate as [d|]; [|done].
  destruct (Hs d eq_refl) as (_ & Hr & Hi & _). simpl.
  destruct (if 1 <? rangeWindowSize this then _ else _) as [start|]; simpl; [|done].
  destruct (sparseArrayDidRequestRange d) as [f|]; simpl.
  - rewrite invoke_sparing; [done|]. by apply Hr.
  - destruct (sparseArrayDidRequestIndex d) as [f|]; simpl; [|done].
    rewrite request_each_sparing; [done|]. by apply Hi.
Qed.

Lemma objectAt_sparing windowSize delegate idx j this :
  spares delegate idx →
  objectAt windowSize delegate j this =
  objectAt windowSize (sparing idx <$> delegate) j this.
Proof. intros Hs. unfold objectAt. by rewrite requestIndex_sparing. Qed.

Lemma length_sparing delegate idx this :
  spares delegate idx →
  length delegate this = length (sparing idx <$> delegate) this.
Proof.
  intros Hs. unfold length. destruct delegate as [d|]; [|done].
  destruct (Hs d eq_refl) as (Hl & _). simpl.
  destruct (none (_length this)); [|done].
  destruct (sparseArrayDidRequestLength d) as [f|]; simpl; [|done].
  rewrite invoke_sparing; [done|]. by apply Hl.
Qed.







(** * Further properties of the methods *)

(** ** Setting and asking the length *)

Lemma respond_snoc rs r this : respond (rs ++ [r]) this = respond1 (respond rs this) r.
Proof. unfold respond. by rewrite foldl_app. Qed.

Lemma provideLength_frame l this :
  let this' := provideLength l this in
  _length this' = l ∧
  _sa_content this' = (if none l then None else _sa_content this) ∧
  rangeWindowSize this' = rangeWindowSize this ∧
  notifications this' =
    notifications this ++
    (if decide (_length this = l) then [] else [EnumerableContentDidChange None]) ∧
  calls this' = calls this.
Proof.
  unfold provideLength, enumerableContentDidChange.
  destruct (none l) eqn:Hnone.
  - change (_length (with_content None this)) with (_length this).
    destruct (decide (l ≠ _length this)) as [Hne|Heq].
    + rewrite notifications_emit, calls_emit. simpl. rewrite app_nil_r.
      repeat split. by rewrite decide_False by congruence.
    + apply dec_stable in Heq. subst l. rewrite decide_True by done.
      by rewrite app_nil_r.
  - destruct (decide (l ≠ _length this)) as [Hne|Heq].
    + rewrite notifications_emit, calls_emit. simpl. rewrite app_nil_r.
      repeat split. by rewrite decide_False by congruence.
    + apply dec_stable in Heq. subst l. rewrite decide_True by done.
      by rewrite app_nil_r.
Qed.

(** X1: [provideLength(n)] with a number sets the length to [n], keeps the
    cache as it is, calls nothing, and notifies one content change exactly
    when [n] is not the length the array had: giving the same length again
    is silent. *)
Theorem provideLength_number_effect n this :
  let this' := provideLength (LNum n) this in
  _length this' = LNum n ∧
  _sa_content this' = _sa_content this ∧
  notifications this' =
    notifications this ++
    (if decide (_length this = LNum n) then [] else [EnumerableContentDidChange None]) ∧
  calls this' = calls this.
Proof.
  intros this'.
  destruct (provideLength_frame (LNum n) this) as (Hl & Hc & _ & Hn & Hk).
  done.
Qed.

(** X2: [provideLength] with [null] or [undefined] drops the whole cache,
    calls nothing, and notifies only when the value given is not the one
    the array had: on an array whose length is already [null], a
    [provideLength(null)] empties the cache without any notification. *)
Theorem provideLength_none_drops_cache l this :
  none l = true →
  let this' := provideLength l this in
  _sa_content this' = None ∧
  (∀ idx, cached this' idx = JUndefined) ∧
  _length this' = l ∧
  notifications this' =
    notifications this ++
    (if decide (_length this = l) then [] else [EnumerableContentDidChange None]) ∧
  calls this' = calls this.
Proof.
  intros Hnone this'.
  destruct (provideLength_frame l this) as (Hl & Hc & _ & Hn & Hk).
  rewrite Hnone in Hc. fold this' in Hl, Hc, Hn, Hk.
  split; [done|]. split; [|done].
  intros idx. unfold cached, content_or_new. by rewrite Hc.
Qed.

Lemma provideLength_none_drops_cache_witness :
  let this := with_length LNull five in
  let this' := provideLength LNull this in
  _sa_content this' = None ∧
  (∀ idx, cached this' idx = JUndefined) ∧
  _length this' = LNull ∧
  notifications this' = notifications this ++ [] ∧
  calls this' = calls this.
Proof.
  apply (provideLength_none_drops_cache LNull (with_length LNull five)).
  reflexivity.
Defined.

(** X3: a length that was provided is what the length query hands back,
    whatever delegate is attached: the query of a resolved length makes no
    call and changes nothing. *)
Theorem length_after_provideLength delegate n this :
  length delegate (provideLength (LNum n) this) =
  (Finite n, provideLength (LNum n) this).
Proof.
  destruct (provideLength_frame (LNum n) this) as (Hl & _).
  unfold length. destruct delegate as [d|]; rewrite !Hl; [|done].
  change (none (LNum n)) with false. cbv iota. by rewrite Hl.
Qed.

(** X4: when the length is unresolved and the delegate answers
    [sparseArrayDidRequestLength] at once, its last answer being
    [provideLength(n)], the length query hands back [n] in that same call,
    having called the delegate once with the array; the next query hands
    back [n] again without a call. *)
Theorem length_resolved_at_once d f rs n this :
  none (_length this) = true →
  sparseArrayDidRequestLength d = Some f →
  f this [AThis] = rs ++ [ProvideLength n] →
  let first := length (Some d) this in
  first.1 = Finite n ∧
  calls first.2 = calls this ++ [DelegateCall "sparseArrayDidRequestLength" [AThis]] ∧
  length (Some d) first.2 = (Finite n, first.2).
Proof.
  intros Hnone Hf Hans first.
  assert (first.2 = invoke f "sparseArrayDidRequestLength" [AThis] this) as Hstate.
  { unfold first, length. cbn [snd]. by rewrite Hnone, Hf. }
  assert (_length first.2 = LNum n) as Hlen.
  { rewrite Hstate. unfold invoke. rewrite Hans, respond_snoc. simpl.
    by destruct (provideLength_frame (LNum n)
                   (respond rs (emit (DelegateCall "sparseArrayDidRequestLength"
                                        [AThis]) this))) as (Hl & _). }
  split; [|split].
  - change (first.1) with (match _length first.2 with
                           | LNum m => Finite m
                           | LInfinity _ => NotFinite
                           | LUndefined | LNull => Finite 0
                           end).
    by rewrite Hlen.
  - rewrite Hstate. apply calls_invoke.
  - unfold length at 1. rewrite Hlen.
    change (none (LNum n)) with false. cbv iota. by rewrite Hlen.
Qed.

Lemma length_resolved_at_once_witness :
  let first := length (Some tens) created in
  first.1 = Finite 10 ∧
  calls first.2 = calls created ++ [DelegateCall "sparseArrayDidRequestLength" [AThis]] ∧
  length (Some tens) first.2 = (Finite 10, first.2).
Proof.
  apply (length_resolved_at_once tens (λ _ _, [ProvideLength 10]) [] 10 created);
    reflexivity.
Defined.

(** X5: after [provideLength] with [null] or [undefined] the next length
    query asks the delegate again: it calls
    [sparseArrayDidRequestLength], with the array, if the delegate has
    it. *)
Theorem provideLength_none_asks_again delegate l this :
  none l = true →
  calls (length delegate (provideLength l this)).2 =
  calls this ++
  match delegate with
  | Some d =>
      match sparseArrayDidRequestLength d with
      | Some _ => [DelegateCall "sparseArrayDidRequestLength" [AThis]]
      | None => []
      end
  | None => []
  end.
Proof.
  intros Hnone.
  destruct (provideLength_frame l this) as (Hl & _ & _ & _ & Hk).
  rewrite calls_length_unresolved by (by rewrite Hl). by rewrite Hk.
Qed.

Lemma provideLength_none_asks_again_witness :
  calls (length (Some tens) (provideLength LNull five)).2 =
  calls five ++ [DelegateCall "sparseArrayDidRequestLength" [AThis]].
Proof.
  apply (provideLength_none_asks_again (Some tens) LNull five). reflexivity.
Defined.

(** X14: an array made by [SC.SparseArray.array(len)] has a resolved
    length, [len] or 0 when none is given, and nothing cached: its length
    query hands that back without ever calling the delegate, also one
    that implements [sparseArrayDidRequestLength]. *)
Theorem array_is_resolved_and_empty delegate len idx :
  length delegate (array len) = (Finite (default 0 len), array len) ∧
  cached (array len) idx = JUndefined.
Proof. split; [by destruct delegate, len|done]. Qed.

(** ** Providing elements and reading them *)

(** X6: [provideObjectsInRange(range, array)] stores [array[k]] at
    [start + k] for every [k] below the length of the range and leaves
    every other index as it was; it never looks at or changes the declared
    length, so elements beyond it are taken; it notifies exactly one
    content change, whatever the size of the range, and calls nothing. *)
Theorem provideObjectsInRange_effect range array this j :
  let this' := provideObjectsInRange range array this in
  cached this' j =
    (if decide (in_range range j)
     then item array (j - Range.start range)
     else cached this j) ∧
  _length this' = _length this ∧
  notifications this' = notifications this ++ [EnumerableContentDidChange None] ∧
  calls this' = calls this.
Proof.
  intros this'. split; [apply cached_provideObjectsInRange|].
  unfold this', provideObjectsInRange, enumerableContentDidChange.
  rewrite notifications_emit, calls_emit. simpl. by rewrite app_nil_r.
Qed.

(** X7: when the array handed to [provideObjectsInRange] is shorter than
    the range, the indices of the range past the end of the array are
    overwritten with [undefined]: what was cached there is lost. *)
Theorem provideObjectsInRange_short_array range array this j :
  in_range range j →
  (List.length array ≤ j - Range.start range)%nat →
  cached (provideObjectsInRange range array this) j = JUndefined.
Proof.
  intros Hin Hshort. rewrite cached_provideObjectsInRange, decide_True by done.
  unfold item. by rewrite lookup_ge_None_2.
Qed.

Lemma provideObjectsInRange_short_array_witness :
  cached (provideObjectsInRange (Range.make 0 3) [JStr "a"] five) 2 = JUndefined.
Proof.
  apply (provideObjectsInRange_short_array (Range.make 0 3) [JStr "a"] five 2).
  - unfold in_range; simpl; lia.
  - simpl; lia.
Defined.

(** X8: a range request answered at once is read in the same call.  On a
    miss at [idx], with the window size at most 1, suppose that all the
    delegate does while [sparseArrayDidRequestRange] runs is to give
    lengths and to provide elements, and that the last thing it does is to
    provide a range that covers [idx], with a value [v] other than
    [undefined] at [idx].  Then the read hands back [v]; read again, [v]
    comes from the cache, with the array unchanged and so without a second
    request. *)
Theorem objectAt_served_at_once windowSize d f idx v this rs range array :
  sparseArrayDidRequestRange d = Some f →
  rangeWindowSize this ≤ 1 →
  cached this idx = JUndefined →
  f (with_content (Some (content_or_new this)) this)
    [AThis; ARange (Finite (Z.of_nat idx)) 1]
  = rs ++ [ProvideObjectsInRange range array] →
  in_range range idx →
  item array (idx - Range.start range) = v →
  v ≠ JUndefined →
  ∃ this',
    objectAt windowSize (Some d) idx this = Normal (v, this') ∧
    objectAt windowSize (Some d) idx this' = Normal (v, this').
Proof.
  intros Hf Hw Hmiss Hans Hin Hitem Hv.
  rewrite objectAt_miss by done. rewrite requestIndex_unwindowed by done.
  rewrite Hf. unfold invoke. rewrite Hans, respond_snoc. simpl.
  set (this' := provideObjectsInRange _ _ _).
  assert (cached this' idx = v) as Hc.
  { unfold this'. rewrite cached_provideObjectsInRange. by rewrite decide_True. }
  exists this'. rewrite Hc. split; [done|].
  rewrite objectAt_hit by (by rewrite Hc).
  rewrite (with_content_cached this' idx) by (by rewrite Hc). by rewrite Hc.
Qed.

Lemma objectAt_served_at_once_witness :
  ∃ this',
    objectAt None (Some tens) 7 created = Normal (JNum 70, this') ∧
    objectAt None (Some tens) 7 this' = Normal (JNum 70, this').
Proof.
  apply (objectAt_served_at_once None tens
           (λ _ args,
              match args with
              | [AThis; ARange (Finite start) len] =>
                  [ProvideObjectsInRange
                     (Range.make (Z.to_nat start) (Z.to_nat len))
                     ((λ k, JNum ((start + Z.of_nat k) * 10)) <$> seq 0 (Z.to_nat len))]
              | _ => []
              end) 7 (JNum 70) created [] (Range.make 7 1) [JNum 70]);
    [reflexivity | simpl; lia | reflexivity | reflexivity
    | unfold in_range; simpl; lia | reflexivity | discriminate].
Defined.

(** X9: a delegate that implements both request methods is asked for the
    range only: on a miss, with the window size at most 1, the one call is
    [sparseArrayDidRequestRange] and [sparseArrayDidRequestIndex] is not
    called. *)
Theorem range_request_is_preferred windowSize d f g idx this :
  sparseArrayDidRequestRange d = Some f →
  sparseArrayDidRequestIndex d = Some g →
  rangeWindowSize this ≤ 1 →
  cached this idx = JUndefined →
  ∃ v this',
    objectAt windowSize (Some d) idx this = Normal (v, this') ∧
    calls this' =
    calls this ++
    [DelegateCall "sparseArrayDidRequestRange"
       [AThis; ARange (Finite (Z.of_nat idx)) 1]].
Proof.
  intros Hf _ Hw Hmiss. rewrite objectAt_miss by done.
  rewrite requestIndex_unwindowed by done. rewrite Hf. simpl.
  eexists _, _. split; [done|]. by rewrite calls_invoke.
Qed.

Lemma range_request_is_preferred_witness :
  ∃ v this',
    objectAt None (Some fetches_both) 3 (windowed 1) = Normal (v, this') ∧
    calls this' =
    calls (windowed 1) ++
    [DelegateCall "sparseArrayDidRequestRange" [AThis; ARange (Finite 3) 1]].
Proof.
  apply (range_request_is_preferred None fetches_both (λ _ _, []) (λ _ _, []) 3
           (windowed 1));
    [reflexivity | reflexivity | simpl; lia | reflexivity].
Defined.

(** X10: without a delegate a read requests nothing and never raises,
    whatever the window size: it hands back what is cached at [idx],
    [undefined] when nothing is, and leaves elements, length and trace as
    they were. *)
Theorem objectAt_without_delegate windowSize idx this :
  ∃ this',
    objectAt windowSize None idx this = Normal (cached this idx, this') ∧
    (∀ j, cached this' j = cached this j) ∧
    _length this' = _length this ∧
    trace this' = trace this.
Proof.
  exists (with_content (Some (content_or_new this)) this).
  split; [|done].
  destruct (decide (cached this idx = JUndefined)) as [Hv|Hv].
  - rewrite objectAt_miss by done. simpl. by rewrite cached_content_or_new.
  - by rewrite objectAt_hit.
Qed.

(** ** Lookup by value *)





(** ** Invalidation *)




(** X13: for what is cached, invalidating the same range twice is as
    invalidating it once, and two invalidations can be done in either
    order; neither changes the length. *)
Theorem invalidation_idempotent_and_commutes r1 r2 this j :
  cached (objectsDidChangeInRange r1 (objectsDidChangeInRange r1 this)) j =
  cached (objectsDidChangeInRange r1 this) j ∧
  cached (objectsDidChangeInRange r1 (objectsDidChangeInRange r2 this)) j =
  cached (objectsDidChangeInRange r2 (objectsDidChangeInRange r1 this)) j ∧
  _length (objectsDidChangeInRange r1 (objectsDidChangeInRange r2 this)) =
  _length this.
Proof.
  rewrite !cached_objectsDidChangeInRange.
  split; [|split].
  - by repeat case_decide.
  - by repeat case_decide.
  - destruct (objectsDidChangeInRange_frame r1 (objectsDidChangeInRange r2 this))
      as (Hl1 & _).
    destruct (objectsDidChangeInRange_frame r2 this) as (Hl2 & _).
    by rewrite Hl1, Hl2.
Qed.

(** ** Edits *)

(** X15: once the delegate has let an edit through, the edit does to the
    cache, the length and the notifications exactly what it does on an
    array without a delegate. *)
Theorem permitted_edit_is_the_unattended_edit d idx amt objects this :
  permits (Some d) idx amt (default [] objects) this →
  let attended := replace (Some d) idx amt objects this in
  let unattended := replace None idx amt objects this in
  _sa_content attended = _sa_content unattended ∧
  _length attended = _length unattended ∧
  notifications attended = notifications unattended.
Proof.
  intros Hp attended unattended. unfold attended, unattended.
  rewrite (replace_permitted (Some d)) by done.
  rewrite (replace_permitted None) by done.
  set (objs := default [] objects).
  set (asked := emit (DelegateCall "sparseArrayShouldReplace"
                        (replace_args idx amt objs)) this).
  pose proof (apply_replace_spec idx amt objs asked) as (Hc & Hl & _ & Hn & _).
  pose proof (apply_replace_spec idx amt objs this) as (Hc' & Hl' & _ & Hn' & _).
  assert (notifications asked = notifications this) as Hna.
  { unfold asked. rewrite notifications_emit. simpl. by rewrite app_nil_r. }
  rewrite Hc, Hc', Hl, Hl', Hn, Hn', Hna. done.
Qed.

Lemma permitted_edit_is_the_unattended_edit_witness :
  let attended := replace (Some (gatekeeper (JBool true))) 2 1 (Some [JStr "a"]) five in
  let unattended := replace None 2 1 (Some [JStr "a"]) five in
  _sa_content attended = _sa_content unattended ∧
  _length attended = _length unattended ∧
  notifications attended = notifications unattended.
Proof.
  apply (permitted_edit_is_the_unattended_edit (gatekeeper (JBool true)) 2 1
           (Some [JStr "a"]) five).
  exists (λ _ _, JBool true). split; reflexivity.
Defined.

(** X16: [replace] asks the delegate exactly once, through
    [sparseArrayShouldReplace] with the array, [idx], [amt] and the objects
    ([[]] when none were given), when the delegate has the method, and makes
    no call otherwise; this is so whether the edit is then applied or
    refused. *)
Theorem replace_asks_once delegate idx amt objects this :
  calls (replace delegate idx amt objects this) =
  calls this ++
  match delegate with
  | Some d =>
      match sparseArrayShouldReplace d with
      | Some _ =>
          [DelegateCall "sparseArrayShouldReplace"
             (replace_args idx amt (default [] objects))]
      | None => []
      end
  | None => []
  end.
Proof.
  unfold replace, get_permission, ask.
  destruct delegate as [d|].
  - destruct (sparseArrayShouldReplace d) as [q|]; [|by rewrite app_nil_r].
    destruct (truthy _).
    + pose proof (apply_replace_spec idx amt (default [] objects)
                    (emit (DelegateCall "sparseArrayShouldReplace"
                             (replace_args idx amt (default [] objects))) this))
        as (_ & _ & _ & _ & Hk).
      rewrite Hk. by rewrite calls_emit.
    + by rewrite calls_emit.
  - pose proof (apply_replace_spec idx amt (default [] objects) this)
      as (_ & _ & _ & _ & Hk).
    rewrite Hk. by rewrite app_nil_r.
Qed.

(** X17: an edit that is let through leaves the length as it is, and
    notifies the content change alone, without a will and a did of
    [length], when the length is unresolved or when as many objects are
    put in as are taken out. *)
Theorem replace_without_length_change delegate idx amt objects this :
  permits delegate idx amt (default [] objects) this →
  none (_length this) = true ∨ delta amt (default [] objects) = 0 →
  let this' := replace delegate idx amt objects this in
  _length this' = _length this ∧
  notifications this' = notifications this ++ [EnumerableContentDidChange None].
Proof.
  intros Hp Hcase this'. unfold this'. rewrite replace_permitted by done.
  set (objs := default [] objects) in *.
  set (asked := match delegate with Some _ => _ | None => this end).
  assert (_length asked = _length this ∧
          notifications asked = notifications this) as (Hla & Hna).
  { unfold asked. destruct delegate; [|done].
    split; [done|]. rewrite notifications_emit. simpl. by rewrite app_nil_r. }
  pose proof (apply_replace_spec idx amt objs asked) as (_ & Hl & _ & Hn & _).
  rewrite Hl, Hn, Hla, Hna. destruct Hcase as [Hnone|Hzero].
  - destruct (_length this); try done.
    all: split; [done|]; by rewrite decide_False by (by intros []).
  - split.
    + destruct (_length this) as [| |n|negative]; try done.
      by rewrite decide_True.
    + rewrite Hzero. by rewrite decide_False by (by intros []).
Qed.

Lemma replace_without_length_change_witness :
  let this' := replace None 1 2 (Some [JStr "a"; JStr "b"]) five in
  _length this' = _length five ∧
  notifications this' = notifications five ++ [EnumerableContentDidChange None].
Proof.
  apply (replace_without_length_change None 1 2 (Some [JStr "a"; JStr "b"]) five);
    [exact I | right; reflexivity].
Defined.

(** ** Missing capabilities, single elements, stale elements *)

(** X18: a delegate that implements neither request method is asked
    nothing: with the window size at most 1, a read hands back what is
    cached at [idx], [undefined] on a miss, makes no call and leaves
    elements, length and trace as they were. *)
Theorem objectAt_without_request_methods windowSize d idx this :
  sparseArrayDidRequestRange d = None →
  sparseArrayDidRequestIndex d = None →
  rangeWindowSize this ≤ 1 →
  ∃ this',
    objectAt windowSize (Some d) idx this = Normal (cached this idx, this') ∧
    (∀ j, cached this' j = cached this j) ∧
    _length this' = _length this ∧
    trace this' = trace this.
Proof.
  intros Hr Hi Hw. exists (with_content (Some (content_or_new this)) this).
  split; [|done].
  destruct (decide (cached this idx = JUndefined)) as [Hv|Hv].
  - rewrite objectAt_miss by done. rewrite requestIndex_unwindowed by done.
    rewrite Hr, Hi. simpl. by rewrite cached_content_or_new.
  - by rewrite objectAt_hit.
Qed.

Lemma objectAt_without_request_methods_witness :
  ∃ this',
    objectAt None (Some no_capability) 3 five = Normal (cached five 3, this') ∧
    (∀ j, cached this' j = cached five j) ∧
    _length this' = _length five ∧
    trace this' = trace five.
Proof.
  apply (objectAt_without_request_methods None no_capability 3 five);
    [reflexivity | reflexivity | simpl; lia].
Defined.

(** X19: [provideObjectAtIndex(index, object)] stores [object] at [index]
    and touches no other index and not the length; it notifies exactly one
    content change and calls nothing. *)
Theorem provideObjectAtIndex_effect index object this j :
  let this' := provideObjectAtIndex index object this in
  cached this' j = (if decide (index = j) then object else cached this j) ∧
  _length this' = _length this ∧
  notifications this' = notifications this ++ [EnumerableContentDidChange None] ∧
  calls this' = calls this.
Proof.
  intros this'. split; [apply cached_provideObjectAtIndex|].
  unfold this', provideObjectAtIndex, provideObjectsInRange, enumerableContentDidChange.
  rewrite notifications_emit, calls_emit. simpl. by rewrite app_nil_r.
Qed.

(** X20: invalidation never makes the cached array longer, however far the
    range reaches: the array is dropped, which happens only for a range
    that starts at 0 and reaches its end, or it keeps its length; and an
    array that was not there is not made. *)
Theorem invalidation_never_grows_the_array range this :
  match _sa_content this, _sa_content (objectsDidChangeInRange range this) with
  | Some content, Some content' => List.length content' = List.length content
  | Some content, None =>
      Range.start range = 0%nat ∧ (List.length content ≤ maxRange range)%nat
  | None, after => after = None
  end.
Proof.
  unfold objectsDidChangeInRange, enumerableContentDidChange.
  destruct this as [[content|] l w t]; simpl; [|done].
  case_decide as Hcover; simpl; [done|].
  apply length_clear_loop. lia.
Qed.

(** X21: a length given below a cached index does not hide the element:
    after [provideLength(n)], for any number [n], a read at an index that
    was cached hands back the same element, without a request. *)
Theorem cached_element_survives_provideLength windowSize delegate n idx this :
  cached this idx ≠ JUndefined →
  objectAt windowSize delegate idx (provideLength (LNum n) this) =
  Normal (cached this idx, provideLength (LNum n) this).
Proof.
  intros Hv.
  assert (cached (provideLength (LNum n) this) idx = cached this idx) as Hc.
  { apply cached_provideLength. }
  rewrite objectAt_hit by (by rewrite Hc).
  rewrite (with_content_cached _ idx) by (by rewrite Hc). by rewrite Hc.
Qed.

Lemma cached_element_survives_provideLength_witness :
  objectAt None (Some fetches_later) 4 (provideLength (LNum 2) five) =
  Normal (JNum 40, provideLength (LNum 2) five).
Proof.
  apply (cached_element_survives_provideLength None (Some fetches_later) 2 4 five).
  discriminate.
Defined.

End SC.
